(** * IndexedLinkedHashMap (src/src/lib.rs) over the [Vec<K>] realisation of [Keys]

    The struct pairs an order index [_keys : Vec<K>] with a value table
    [_values : HashMap<K, IndexedLinkedHashMapValue<V>>].  The [Vec] is a
    [list K] updated with stdpp's list [insert] and [delete] behind the bounds
    checks written in [impl Keys<K> for Vec<K>]; the [HashMap] is a [gmap]. *)

From stdpp Require Import base gmap list strings pretty.

Module Collections.
Section VecKeys.
Context {K : Type}.

(** [impl Keys<K> for Vec<K>::get] *)
Definition get (self : list K) (i : option nat) : option K :=
  match i with
  | Some i => if decide (length self <= i) then None else self !! i
  | None => None
  end.

(** [impl Keys<K> for Vec<K>::set]: [self[i] = k] behind a bounds check. *)
Definition set (self : list K) (i : option nat) (k : K) : list K :=
  match i with
  | Some i => if decide (length self <= i) then self else <[i := k]> self
  | None => self
  end.

(** [impl Keys<K> for Vec<K>::push] *)
Definition push (self : list K) (k : K) : list K := self ++ [k].

(** [impl Keys<K> for Vec<K>::remove]: [Vec::remove(i)] shifts the tail down. *)
Definition remove (self : list K) (i : option nat) : list K :=
  match i with
  | Some i => if decide (length self <= i) then self else delete i self
  | None => self
  end.

(** [impl Keys<K> for Vec<K>::clear] *)
Definition clear (self : list K) : list K := [].

(** [impl Keys<K> for Vec<K>::len] *)
Definition len (self : list K) : nat := length self.

End VecKeys.
End Collections.

(** [struct IndexedLinkedHashMapValue<V>] *)
Record IndexedLinkedHashMapValue (V : Type) := mkValue {
  index : option nat;
  value : V;
}.
Arguments mkValue {V} _ _.
Arguments index {V} _.
Arguments value {V} _.

Section Map.
Context {K : Type} `{Countable K} {V : Type}.

(** [struct IndexedLinkedHashMap<Vec<K>, K, V>] *)
Record IndexedLinkedHashMap := mkMap {
  _keys : list K;
  _values : gmap K (IndexedLinkedHashMapValue V);
}.

(** [IndexedLinkedHashMap::new] *)
Definition new : IndexedLinkedHashMap := mkMap [] ∅.

(** [IndexedLinkedHashMap::get] *)
Definition get (self : IndexedLinkedHashMap) (k : K) : option V :=
  match _values self !! k with
  | Some v => Some (value v)
  | None => None
  end.

(** [IndexedLinkedHashMap::contains_key] *)
Definition contains_key (self : IndexedLinkedHashMap) (k : K) : bool :=
  bool_decide (is_Some (_values self !! k)).

(** [IndexedLinkedHashMap::set] *)
Definition set (self : IndexedLinkedHashMap) (k : K) (v : V) : IndexedLinkedHashMap :=
  match _values self !! k with
  | Some value =>
      mkMap (_keys self) (<[k := mkValue (index value) v]> (_values self))
  | None =>
      let keys := Collections.push (_keys self) k in
      mkMap keys (<[k := mkValue (Some (Collections.len keys - 1)) v]> (_values self))
  end.

(** [IndexedLinkedHashMap::at] *)
Definition at_ (self : IndexedLinkedHashMap) (i : option nat) : option V :=
  match i with
  | Some i =>
      if decide (Collections.len (_keys self) <= i) then None
      else match Collections.get (_keys self) (Some i) with
           | Some k => match _values self !! k with
                       | Some v => Some (value v)
                       | None => None
                       end
           | None => None
           end
  | None =>
      match Collections.get (_keys self) i with
      | Some k => match _values self !! k with
                  | Some v => Some (value v)
                  | None => None
                  end
      | None => None
      end
  end.

(** [IndexedLinkedHashMap::key_at] *)
Definition key_at (self : IndexedLinkedHashMap) (i : option nat) : option K :=
  match i with
  | Some i =>
      if decide (Collections.len (_keys self) <= i) then None
      else Collections.get (_keys self) (Some i)
  | None => Collections.get (_keys self) i
  end.

(** [IndexedLinkedHashMap::set_at] *)
Definition set_at (self : IndexedLinkedHashMap) (i : option nat) (k : K) (v : V)
    : IndexedLinkedHashMap :=
  match i with
  | Some i =>
      if decide (Collections.len (_keys self) <= i) then self
      else mkMap (Collections.set (_keys self) (Some i) k)
                 (<[k := mkValue (Some i) v]> (_values self))
  | None =>
      mkMap (Collections.set (_keys self) i k)
            (<[k := mkValue i v]> (_values self))
  end.

(** [IndexedLinkedHashMap::remove]: the removed entry and the new state. *)
Definition remove (self : IndexedLinkedHashMap) (k : K)
    : option (IndexedLinkedHashMapValue V) * IndexedLinkedHashMap :=
  match _values self !! k with
  | Some removed =>
      (Some removed,
       mkMap (Collections.remove (_keys self) (index removed)) (delete k (_values self)))
  | None => (None, self)
  end.

(** [IndexedLinkedHashMap::clear] *)
Definition clear (self : IndexedLinkedHashMap) : IndexedLinkedHashMap :=
  mkMap (Collections.clear (_keys self)) ∅.

(** [IndexedLinkedHashMap::len] *)
Definition len (self : IndexedLinkedHashMap) : nat := Collections.len (_keys self).

(** [IndexedLinkedHashMap::keys] *)
Definition keys (self : IndexedLinkedHashMap) : list K := _keys self.

(** [IndexedLinkedHashMap::values]: [HashMap::values] collected into a [Vec];
    the HashMap's iteration order is unspecified, [map_to_list] stands for it. *)
Definition values (self : IndexedLinkedHashMap) : list (IndexedLinkedHashMapValue V) :=
  (map_to_list (_values self)).*2.

(** The mutating operations, as a caller issues them. *)
Inductive Op :=
  | OSet (k : K) (v : V)
  | OSetAt (i : option nat) (k : K) (v : V)
  | ORemove (k : K)
  | OClear.

Definition step (self : IndexedLinkedHashMap) (o : Op) : IndexedLinkedHashMap :=
  match o with
  | OSet k v => set self k v
  | OSetAt i k v => set_at self i k v
  | ORemove k => (remove self k).2
  | OClear => clear self
  end.

Definition run (ops : list Op) : IndexedLinkedHashMap := foldl step new ops.

End Map.

Arguments IndexedLinkedHashMap K {_ _} V.

(** [impl Debug for IndexedLinkedHashMap::fmt], with the [Debug] renderings of
    [K] and [V] as parameters: for [i in 0..len] it looks up slot [i] and, when
    the key has an entry, appends [format!("{:?}: {:?}", k, v.value)]. *)
Section Debug.
Context {K : Type} `{Countable K} {V : Type}.
Context (fmt_k : K -> string) (fmt_v : V -> string).

Definition fmt_entry (self : IndexedLinkedHashMap K V) (out : string) (i : nat) : string :=
  match Collections.get (_keys self) (Some i) with
  | Some k =>
      match _values self !! k with
      | Some v => (out ++ (fmt_k k ++ ": " ++ fmt_v (value v)))%string
      | None => out
      end
  | None => out
  end.

Definition fmt (self : IndexedLinkedHashMap K V) : string :=
  foldl (fmt_entry self) "" (seq 0 (Collections.len (_keys self))).

End Debug.

(** ** The consistency invariant and the bookkeeping of the spec *)

Section Invariant.
Context {K : Type} `{Countable K} {V : Type}.

(** Order index and value table agree: no duplicate key in the order index,
    each of its keys has an entry recording its slot, and each entry records
    a slot that holds its key. *)
Definition wf (s : IndexedLinkedHashMap K V) : Prop :=
  NoDup (_keys s) /\
  (forall j k, _keys s !! j = Some k ->
     exists x, _values s !! k = Some x /\ index x = Some j) /\
  (forall k x, _values s !! k = Some x ->
     exists j, index x = Some j /\ _keys s !! j = Some k).

Definition is_set_or_clear (o : Op (K:=K) (V:=V)) : bool :=
  match o with OSet _ _ | OClear => true | _ => false end.

(** The distinct keys passed to [set] since the last [clear], in first-call
    order: what the length invariant counts. *)
Definition distinct_set_keys_step (acc : list K) (o : Op (K:=K) (V:=V)) : list K :=
  match o with
  | OSet k _ => if decide (k ∈ acc) then acc else acc ++ [k]
  | OClear => []
  | _ => acc
  end.

Definition distinct_set_keys (ops : list (Op (K:=K) (V:=V))) : list K :=
  foldl distinct_set_keys_step [] ops.

End Invariant.

(** ** Concrete states *)

Definition abc : IndexedLinkedHashMap string nat :=
  run [OSet "a" 1; OSet "b" 2; OSet "c" 3; ORemove "a"].

Definition ops_ab : list (Op (K:=string) (V:=nat)) := [OSet "a" 1; OSet "b" 2].

Definition ops_abc : list (Op (K:=string) (V:=nat)) := [OSet "a" 1; OSet "b" 2; OSet "c" 3].

Definition ops_a_clear_b : list (Op (K:=string) (V:=nat)) := [OSet "a" 1; OClear; OSet "b" 2].

(** [Debug] of [&str]: the string between double quotes. *)
Definition debug_str (k : string) : string :=
  String.String (Ascii.ascii_of_nat 34) (k ++ String.String (Ascii.ascii_of_nat 34) "").


(** ** Invariant lemmas *)

Section Lemmas.
Context {K : Type} `{Countable K} {V : Type}.
Implicit Types (s : IndexedLinkedHashMap K V) (k : K) (v : V).

Lemma wf_new : wf (new (K:=K) (V:=V)).
Proof.
  split; [constructor|]. split.
  - intros j k Hj. simpl in Hj. by rewrite lookup_nil in Hj.
  - intros k x Hx. simpl in Hx. by rewrite lookup_empty in Hx.
Qed.

Lemma wf_clear s : wf (clear s).
Proof.
  split; [constructor|]. split.
  - intros j k Hj. cbv [clear Collections.clear _keys] in Hj. by rewrite lookup_nil in Hj.
  - intros k x Hx. cbv [clear _values] in Hx. by rewrite lookup_empty in Hx.
Qed.

Lemma wf_elem s k : wf s -> (k ∈ _keys s <-> is_Some (_values s !! k)).
Proof.
  intros (Hnd & H2 & H3). rewrite list_elem_of_lookup. split.
  - intros [j Hj]. destruct (H2 _ _ Hj) as (x & Hx & _). eauto.
  - intros [x Hx]. destruct (H3 _ _ Hx) as (j & _ & Hj). eauto.
Qed.

Lemma wf_set s k v : wf s -> wf (set s k v).
Proof.
  intros Hwf. pose proof Hwf as (Hnd & H2 & H3).
  unfold set. destruct (_values s !! k) as [x|] eqn:Ex; unfold wf; simpl.
  - split; [done|]. split.
    + intros j k' Hj. destruct (H2 _ _ Hj) as (x' & Hx' & Hi).
      destruct (decide (k' = k)) as [->|Hne].
      * rewrite lookup_insert_eq. eexists; split; [done|].
        simpl. congruence.
      * rewrite lookup_insert_ne by done. eauto.
    + intros k' x' Hx'. destruct (decide (k' = k)) as [->|Hne].
      * rewrite lookup_insert_eq in Hx'. injection Hx' as <-. simpl.
        destruct (H3 _ _ Ex) as (j & Hi & Hj). eauto.
      * rewrite lookup_insert_ne in Hx' by done. eauto.
  - assert (Hk : k ∉ _keys s).
    { rewrite (wf_elem s k Hwf), Ex. intros [? ?]; discriminate. }
    unfold Collections.push, Collections.len. rewrite length_app. simpl.
    replace (length (_keys s) + 1 - 1) with (length (_keys s)) by lia.
    split; [|split].
    + apply NoDup_app. split; [done|]. split; [|by apply NoDup_singleton].
      intros y Hy Hy'. apply list_elem_of_singleton in Hy'. subst. done.
    + intros j k' Hj. apply lookup_snoc_Some in Hj as [[Hlt Hj]|[-> <-]].
      * destruct (H2 _ _ Hj) as (x' & Hx' & Hi).
        assert (k' <> k) by (intros ->; congruence).
        rewrite lookup_insert_ne by done. eauto.
      * rewrite lookup_insert_eq. eauto.
    + intros k' x' Hx'. destruct (decide (k' = k)) as [->|Hne].
      * rewrite lookup_insert_eq in Hx'. injection Hx' as <-.
        exists (length (_keys s)). split; [done|].
        apply lookup_snoc_Some. right. done.
      * rewrite lookup_insert_ne in Hx' by done.
        destruct (H3 _ _ Hx') as (j & Hi & Hj). exists j. split; [done|].
        apply lookup_snoc_Some. left. split; [|done].
        by eapply lookup_lt_Some.
Qed.

Lemma wf_size s : wf s -> size (_values s) = length (_keys s).
Proof.
  intros Hwf. destruct Hwf as (Hnd & H2 & H3) eqn:Hwf'.
  rewrite <-(size_dom (D:=gset K) (_values s)).
  assert (Hd : dom (_values s) = list_to_set (C:=gset K) (_keys s)).
  { apply set_eq. intros k. rewrite elem_of_dom, elem_of_list_to_set.
    symmetry. by apply wf_elem. }
  rewrite Hd. by apply size_list_to_set.
Qed.

Lemma length_values s : length (values s) = size (_values s).
Proof. unfold values. by rewrite length_fmap, length_map_to_list. Qed.

Lemma keys_set_wf s k v :
  wf s -> _keys (set s k v) =
    if decide (k ∈ _keys s) then _keys s else _keys s ++ [k].
Proof.
  intros Hwf. pose proof (wf_elem s k Hwf) as He. unfold set.
  destruct (_values s !! k) as [x|] eqn:Ex; simpl.
  - rewrite decide_True; [done|]. apply He. eauto.
  - rewrite decide_False; [done|]. rewrite He. intros [? ?]; discriminate.
Qed.

Lemma run_set_clear_gen (ops : list (Op (K:=K) (V:=V))) s acc :
  forallb is_set_or_clear ops = true -> wf s -> _keys s = acc ->
  wf (foldl step s ops) /\
  _keys (foldl step s ops) = foldl distinct_set_keys_step acc ops.
Proof.
  revert s acc. induction ops as [|o ops IH]; intros s acc Hops Hwf Hk; [done|].
  simpl in Hops. apply andb_prop in Hops as [Ho Hops]. simpl.
  destruct o as [k v| | |]; try discriminate; apply IH; try done.
  - by apply wf_set.
  - simpl. rewrite keys_set_wf by done. by rewrite Hk.
  - apply wf_clear.
Qed.

Lemma run_set_clear (ops : list (Op (K:=K) (V:=V))) :
  forallb is_set_or_clear ops = true ->
  wf (run ops) /\ _keys (run ops) = distinct_set_keys ops.
Proof. intros Hops. apply run_set_clear_gen; [done|apply wf_new|done]. Qed.

Lemma remove_wf_lengths s k :
  wf s -> contains_key s k = true ->
  length (_keys (remove s k).2) = length (_keys s) - 1 /\
  size (_values (remove s k).2) = size (_values s) - 1.
Proof.
  intros Hwf Hc. pose proof Hwf as (Hnd & H2 & H3).
  unfold contains_key in Hc. apply bool_decide_eq_true in Hc as [x Hx].
  destruct (H3 _ _ Hx) as (j & Hi & Hj).
  unfold remove. rewrite Hx. simpl. rewrite Hi. unfold Collections.remove.
  assert (Hlt : j < length (_keys s)) by (eapply lookup_lt_Some; eauto).
  rewrite decide_False by lia. split.
  - apply length_delete. eauto.
  - rewrite map_size_delete_Some by eauto. lia.
Qed.

Lemma at_key_at s i :
  at_ s i = match key_at s i with
            | Some k => value <$> _values s !! k
            | None => None
            end.
Proof.
  unfold at_, key_at. destruct i as [i|]; simpl; [|done].
  destruct (decide _); [done|].
  destruct (Collections.get (_keys s) (Some i)) as [k|]; [|done]. by destruct (_values s !! k).
Qed.

End Lemmas.

Section ClaimLemmas.
Context {K : Type} `{Countable K} {V : Type}.
Implicit Types (s : IndexedLinkedHashMap K V) (k : K) (v : V).

Lemma set_existing s k v x :
  _values s !! k = Some x ->
  set s k v = mkMap (_keys s) (<[k := mkValue (index x) v]> (_values s)).
Proof. intros Hx. unfold set. by rewrite Hx. Qed.

Lemma set_fresh s k v :
  _values s !! k = None ->
  set s k v = mkMap (_keys s ++ [k]) (<[k := mkValue (Some (length (_keys s))) v]> (_values s)).
Proof.
  intros Hx. unfold set. rewrite Hx. unfold Collections.push, Collections.len.
  rewrite length_app. simpl. by replace (length (_keys s) + 1 - 1) with (length (_keys s)) by lia.
Qed.

Lemma set_lookup_eq s k v : exists i, _values (set s k v) !! k = Some (mkValue i v).
Proof.
  destruct (_values s !! k) as [x|] eqn:Ex.
  - rewrite (set_existing s k v x Ex). simpl. rewrite lookup_insert_eq. eauto.
  - rewrite (set_fresh s k v Ex). simpl. rewrite lookup_insert_eq. eauto.
Qed.

Lemma distinct_set_keys_sets (kvs : list (K * V)) (acc : list K) :
  NoDup (acc ++ kvs.*1) ->
  foldl distinct_set_keys_step acc (map (fun kv => OSet kv.1 kv.2) kvs) = acc ++ kvs.*1.
Proof.
  revert acc. induction kvs as [|[k v] kvs IH]; intros acc Hnd; simpl.
  - by rewrite app_nil_r.
  - assert (Hk : k ∉ acc).
    { simpl in Hnd. apply NoDup_app in Hnd as (_ & Hd & _).
      intros Hin. apply (Hd k Hin). left. }
    rewrite decide_False by done. rewrite IH.
    + by rewrite <-app_assoc.
    + by rewrite <-app_assoc.
Qed.

Lemma foldl_ext_in {A B} (f g : A -> B -> A) (l : list B) (a : A) :
  (forall x b, b ∈ l -> f x b = g x b) -> foldl f a l = foldl g a l.
Proof.
  revert a. induction l as [|b l IH]; intros a Hfg; [done|]. simpl.
  rewrite Hfg by left. apply IH. intros x b' Hb'. apply Hfg. by right.
Qed.

Lemma delete_last {A} (l : list A) (x : A) : delete (length l) (l ++ [x]) = l.
Proof. induction l as [|y l IH]; [done|]. simpl. by rewrite IH. Qed.

Lemma filter_neq_absent {A} `{EqDecision A} (l : list A) (x : A) :
  x ∉ l -> filter (fun y => y <> x) l = l.
Proof.
  induction l as [|y l IH]; intros Hx; [done|].
  rewrite filter_cons_True.
  - f_equal. apply IH. intros Hin. apply Hx. by right.
  - intros ->. apply Hx. left.
Qed.

Lemma delete_nodup_filter {A} `{EqDecision A} (l : list A) j (x : A) :
  NoDup l -> l !! j = Some x -> delete j l = filter (fun y => y <> x) l.
Proof.
  revert j. induction l as [|y l IH]; intros j Hnd Hj; [done|].
  apply NoDup_cons in Hnd as [Hy Hnd]. destruct j as [|j]; simpl in Hj |- *.
  - injection Hj as ->. rewrite filter_cons_False by (intros Hn; by apply Hn).
    symmetry. by apply filter_neq_absent.
  - assert (y <> x) by (intros ->; apply Hy; eapply list_elem_of_lookup; eauto).
    rewrite filter_cons_True by done. f_equal. by apply IH.
Qed.

End ClaimLemmas.

(** ** Claims *)

Section Claims.
Context {K : Type} `{Countable K} {V : Type}.
Implicit Types (s : IndexedLinkedHashMap K V) (k : K) (v : V).

(** C1 (amended): in a state reached from [new] by [set] and [clear] only,
    the order index holds no key twice, each of its keys has a value-table
    entry recording that key's index, and each value-table entry records the
    index of a slot holding its key. *)
Theorem positions_consistent_set_clear (ops : list (Op (K:=K) (V:=V)))
    (Hops : forallb is_set_or_clear ops = true) :
  NoDup (keys (run ops)) /\
  (forall j k, keys (run ops) !! j = Some k ->
     exists x, _values (run ops) !! k = Some x /\ index x = Some j) /\
  (forall k x, _values (run ops) !! k = Some x ->
     exists j, index x = Some j /\ keys (run ops) !! j = Some k).
Proof. exact (proj1 (run_set_clear ops Hops)). Qed.

(** C2 (amended): in a state reached from [new] by [set] and [clear] only,
    [len()], [keys().len()] and [values().len()] all equal the number of
    distinct keys set since the last [clear]; one [remove] of a present key
    from such a state lowers all three by one. *)
Theorem len_invariant_set_clear (ops : list (Op (K:=K) (V:=V)))
    (Hops : forallb is_set_or_clear ops = true) :
  len (run ops) = length (keys (run ops)) /\
  len (run ops) = length (values (run ops)) /\
  len (run ops) = length (distinct_set_keys ops) /\
  (forall k, contains_key (run ops) k = true ->
     len (remove (run ops) k).2 = len (run ops) - 1 /\
     len (remove (run ops) k).2 = length (keys (remove (run ops) k).2) /\
     len (remove (run ops) k).2 = length (values (remove (run ops) k).2)).
Proof.
  destruct (run_set_clear ops Hops) as [Hwf Hk].
  unfold len, keys, Collections.len. rewrite length_values, wf_size by done.
  split; [done|]. split; [done|]. split; [by rewrite Hk|].
  intros k Hc. destruct (remove_wf_lengths _ k Hwf Hc) as [Hl Hs].
  rewrite length_values, Hs, Hl, wf_size by done. lia.
Qed.

(** C5: [set] is an upsert.  The new value is stored under [k] and no other
    entry changes; an existing key keeps its slot and the order index; a new
    key is appended at position [len()], recorded with that position, and the
    length grows by one.  [set] is total. *)
Theorem set_upsert s k v :
  get (set s k v) k = Some v /\
  (forall k', k' <> k -> _values (set s k v) !! k' = _values s !! k') /\
  (contains_key s k = true ->
     keys (set s k v) = keys s /\
     index <$> _values (set s k v) !! k = index <$> _values s !! k) /\
  (contains_key s k = false ->
     keys (set s k v) = keys s ++ [k] /\
     _values (set s k v) !! k = Some (mkValue (Some (len s)) v) /\
     len (set s k v) = S (len s)).
Proof.
  unfold contains_key, get, keys, len, Collections.len.
  destruct (_values s !! k) as [x|] eqn:Ex.
  - rewrite (set_existing s k v x Ex). simpl. rewrite lookup_insert_eq.
    split; [done|]. split; [intros; by rewrite lookup_insert_ne|].
    split; [done|]. intros Hn. discriminate.
  - rewrite (set_fresh s k v Ex). simpl. rewrite lookup_insert_eq.
    split; [done|]. split; [intros; by rewrite lookup_insert_ne|].
    split.
    + intros Hn. discriminate.
    + intros _. rewrite length_app. simpl. split; [done|]. split; [done|]. lia.
Qed.

(** C6: [set_at(Some(i), k, v)] with [i >= len()] leaves the whole state,
    order index and value table alike, unchanged. *)
Theorem set_at_out_of_range s (i : nat) k v (Hi : len s <= i) :
  set_at s (Some i) k v = s.
Proof. unfold set_at. unfold len in Hi. by rewrite decide_True. Qed.

(** C7 (amended): [set_at(Some(i), k_new, v)] on a slot [i < len()] holding
    [k_old <> k_new] writes [k_new] at [i] and leaves the other slots and the
    length alone; the value table maps [k_new] to [(Some(i), v)] and keeps
    [k_old]'s entry unchanged (so [get(k_old)] and [contains_key(k_old)]
    answer as before); [k_old] leaves the order index when [i] was its only
    slot. *)
Theorem set_at_stale_key s (i : nat) k_old k_new v
    (Hi : i < len s) (Hold : keys s !! i = Some k_old) (Hne : k_new <> k_old) :
  keys (set_at s (Some i) k_new v) !! i = Some k_new /\
  (forall j, j <> i -> keys (set_at s (Some i) k_new v) !! j = keys s !! j) /\
  len (set_at s (Some i) k_new v) = len s /\
  _values (set_at s (Some i) k_new v) !! k_new = Some (mkValue (Some i) v) /\
  _values (set_at s (Some i) k_new v) !! k_old = _values s !! k_old /\
  get (set_at s (Some i) k_new v) k_old = get s k_old /\
  contains_key (set_at s (Some i) k_new v) k_old = contains_key s k_old /\
  ((forall j, keys s !! j = Some k_old -> j = i) ->
     k_old ∉ keys (set_at s (Some i) k_new v)).
Proof.
  unfold len, Collections.len in Hi.
  assert (Hs : set_at s (Some i) k_new v =
               mkMap (<[i := k_new]> (_keys s)) (<[k_new := mkValue (Some i) v]> (_values s))).
  { unfold set_at, Collections.set, Collections.len. by rewrite !decide_False by lia. }
  rewrite Hs. unfold keys, len, get, contains_key, Collections.len in *; simpl.
  rewrite lookup_insert_eq, lookup_insert_ne by congruence.
  split; [by apply list_lookup_insert_eq|].
  split; [intros j Hj; by apply list_lookup_insert_ne|].
  split; [apply length_insert|].
  do 4 (split; [done|]).
  intros Honly Hin. apply list_elem_of_lookup in Hin as [j Hj].
  destruct (decide (j = i)) as [->|Hji].
  - rewrite list_lookup_insert_eq in Hj by lia. congruence.
  - rewrite list_lookup_insert_ne in Hj by congruence. by apply Hji, Honly.
Qed.

(** C8: [set] on pairwise distinct keys from [new] leaves [keys()] equal to
    the keys in call order. *)
Theorem keys_run_set_distinct (kvs : list (K * V)) (Hnd : NoDup kvs.*1) :
  keys (run (map (fun kv => OSet kv.1 kv.2) kvs)) = kvs.*1.
Proof.
  assert (Hops : forallb is_set_or_clear (map (fun kv => OSet kv.1 kv.2) kvs) = true).
  { induction kvs as [|kv kvs IH]; [done|]. simpl. apply IH. by inversion Hnd. }
  destruct (run_set_clear _ Hops) as [_ Hk]. unfold keys. rewrite Hk.
  unfold distinct_set_keys. by rewrite distinct_set_keys_sets.
Qed.

(** C9: after [set(k, v1)], a second [set(k, v2)] changes no [key_at(i)];
    [get(k)] and [at(i)] at every slot [i] holding [k] return [v2], and every
    other key and slot reads as before. *)
Theorem set_set_positions s k v1 v2 :
  (forall i, key_at (set (set s k v1) k v2) i = key_at (set s k v1) i) /\
  get (set (set s k v1) k v2) k = Some v2 /\
  (forall i, key_at (set s k v1) i = Some k -> at_ (set (set s k v1) k v2) i = Some v2) /\
  (forall k', k' <> k -> get (set (set s k v1) k v2) k' = get (set s k v1) k') /\
  (forall i, key_at (set s k v1) i <> Some k ->
     at_ (set (set s k v1) k v2) i = at_ (set s k v1) i).
Proof.
  destruct (set_lookup_eq s k v1) as [i1 Hx].
  rewrite (set_existing (set s k v1) k v2 _ Hx). simpl.
  assert (Hka : forall i, key_at (mkMap (_keys (set s k v1))
                  (<[k := mkValue i1 v2]> (_values (set s k v1)))) i = key_at (set s k v1) i)
    by (intros i; by destruct i).
  split; [done|].
  split; [unfold get; simpl; by rewrite lookup_insert_eq|].
  split.
  - intros i Hi. rewrite at_key_at, Hka, Hi. simpl. by rewrite lookup_insert_eq.
  - split.
    + intros k' Hne. unfold get. simpl. by rewrite lookup_insert_ne by congruence.
    + intros i Hi. rewrite !at_key_at, Hka.
      destruct (key_at (set s k v1) i) as [k'|] eqn:E; [|done]. simpl.
      rewrite lookup_insert_ne; [done|]. congruence.
Qed.

(** C10 (amended): [set_at(None, k, v)] leaves the order index and [len()]
    unchanged and stores [k -> (None, v)] in the value table, so [get(k)] is
    [v] and [contains_key(k)] holds; [k] is in [keys()] afterwards exactly
    when it was before. *)
Theorem set_at_none s k v :
  keys (set_at s None k v) = keys s /\
  len (set_at s None k v) = len s /\
  _values (set_at s None k v) !! k = Some (mkValue None v) /\
  get (set_at s None k v) k = Some v /\
  contains_key (set_at s None k v) k = true /\
  (k ∈ keys (set_at s None k v) <-> k ∈ keys s).
Proof.
  unfold set_at, keys, len, get, contains_key. simpl.
  rewrite lookup_insert_eq. repeat split; done.
Qed.

End Claims.

(** ** Further properties of the code *)

Section Extras.
Context {K : Type} `{Countable K} {V : Type}.
Implicit Types (s : IndexedLinkedHashMap K V) (k : K) (v : V).

(** [set] of a key without entry followed by [remove] of it returns the entry
    [(Some(len), v)] and gives back the original state. *)
Theorem remove_set_fresh s k v (Hk : _values s !! k = None) :
  remove (set s k v) k = (Some (mkValue (Some (len s)) v), s).
Proof.
  rewrite (set_fresh s k v Hk). unfold remove, len, Collections.len. simpl.
  rewrite lookup_insert_eq. simpl. unfold Collections.remove.
  rewrite length_app. simpl. rewrite decide_False by lia.
  rewrite delete_last, delete_insert_id by done. by destruct s.
Qed.

(** [remove] of a key without entry returns [None] and changes nothing. *)
Theorem remove_absent s k (Hk : contains_key s k = false) :
  remove s k = (None, s).
Proof.
  unfold contains_key in Hk. apply bool_decide_eq_false in Hk.
  unfold remove. destruct (_values s !! k); [|done]. exfalso. eauto.
Qed.

(** Removing the same key twice: the second [remove] returns [None] and is a
    no-op. *)
Theorem remove_remove s k :
  remove (remove s k).2 k = (None, (remove s k).2).
Proof.
  apply remove_absent. unfold remove, contains_key.
  destruct (_values s !! k) eqn:E; simpl.
  - rewrite lookup_delete_eq. by apply bool_decide_eq_false.
  - rewrite E. by apply bool_decide_eq_false.
Qed.

(** [set_at] never changes [len()], whatever the index. *)
Theorem set_at_len s (i : option nat) k v : len (set_at s i k v) = len s.
Proof.
  unfold set_at, len, Collections.set, Collections.len.
  destruct i as [i|]; simpl; [|done].
  destruct (decide _); [done|]. simpl.
  apply length_insert.
Qed.

(** [set_at(Some(i), k, v)] with [i < len()] is read back by [key_at(i)],
    [at(i)] and [get(k)]. *)
Theorem set_at_in_range_read s (i : nat) k v (Hi : i < len s) :
  key_at (set_at s (Some i) k v) (Some i) = Some k /\
  at_ (set_at s (Some i) k v) (Some i) = Some v /\
  get (set_at s (Some i) k v) k = Some v.
Proof.
  unfold len, Collections.len in Hi.
  assert (Hs : set_at s (Some i) k v =
               mkMap (<[i := k]> (_keys s)) (<[k := mkValue (Some i) v]> (_values s))).
  { unfold set_at, Collections.set, Collections.len. by rewrite !decide_False by lia. }
  assert (Hka : key_at (set_at s (Some i) k v) (Some i) = Some k).
  { rewrite Hs. unfold key_at, Collections.get, Collections.len. simpl.
    rewrite length_insert, !decide_False by lia. by apply list_lookup_insert_eq. }
  split; [done|]. rewrite at_key_at, Hka, Hs. unfold get. simpl.
  by rewrite lookup_insert_eq.
Qed.

(** [Vec]'s [Keys::remove(Some(i))] with [i < len] shifts every later key
    down one slot: slot [j] afterwards holds what slot [j] ([j < i]) or
    [j + 1] ([j >= i]) held. *)
Theorem vec_remove_shift (l : list K) (i j : nat) (Hi : i < length l) :
  Collections.get (Collections.remove l (Some i)) (Some j) =
  Collections.get l (Some (if decide (j < i) then j else S j)).
Proof.
  unfold Collections.remove, Collections.get.
  destruct (decide (length l <= i)) as [Hle|_]; [lia|].
  rewrite length_delete by (apply lookup_lt_is_Some; lia).
  destruct (decide (j < i)) as [Hj|Hj].
  - destruct (decide (length l - 1 <= j)); [lia|].
    destruct (decide (length l <= j)); [lia|]. by apply list_lookup_delete_lt.
  - destruct (decide (length l - 1 <= j)); destruct (decide (length l <= S j));
      try lia; [done|]. apply list_lookup_delete_ge. lia.
Qed.


(** In a state built from [new] by [set] and [clear], [contains_key(k)]
    holds exactly when [k] is in [keys()]. *)
Theorem contains_key_iff_keys (ops : list (Op (K:=K) (V:=V)))
    (Hops : forallb is_set_or_clear ops = true) k :
  contains_key (run ops) k = true <-> k ∈ keys (run ops).
Proof.
  destruct (run_set_clear ops Hops) as [Hwf _].
  unfold contains_key, keys. rewrite bool_decide_eq_true. symmetry.
  by apply wf_elem.
Qed.

(** In a state built from [new] by [set] and [clear], [at(Some(i))] is empty
    exactly when [i >= len()], and below [len()] it is the value [get] gives
    for the key [key_at(Some(i))]. *)
Theorem at_in_set_clear_state (ops : list (Op (K:=K) (V:=V)))
    (Hops : forallb is_set_or_clear ops = true) (i : nat) :
  (at_ (run ops) (Some i) = None <-> len (run ops) <= i) /\
  (i < len (run ops) ->
     exists k v, key_at (run ops) (Some i) = Some k /\
       at_ (run ops) (Some i) = Some v /\ get (run ops) k = Some v).
Proof.
  destruct (run_set_clear ops Hops) as [Hwf _].
  destruct Hwf as (Hnd & H2 & H3).
  assert (Hin : i < len (run ops) ->
     exists k v, key_at (run ops) (Some i) = Some k /\
       at_ (run ops) (Some i) = Some v /\ get (run ops) k = Some v).
  { intros Hi. unfold len, Collections.len in Hi.
    destruct (lookup_lt_is_Some_2 (_keys (run ops)) i Hi) as [k Hk].
    destruct (H2 _ _ Hk) as (x & Hx & _).
    assert (Hka : key_at (run ops) (Some i) = Some k).
    { unfold key_at, Collections.get, Collections.len. by rewrite !decide_False by lia. }
    exists k, (value x). rewrite at_key_at, Hka. unfold get. rewrite Hx. done. }
  split; [|done]. split.
  - intros Hn. destruct (decide (len (run ops) <= i)); [done|].
    destruct (Hin ltac:(lia)) as (k & v & _ & Ha & _). congruence.
  - intros Hle. unfold at_, len in *. by rewrite decide_True.
Qed.

(** In a state built from [new] by [set] and [clear], [remove(k)] of a present
    key takes exactly [k] out: [keys()] loses [k] and keeps the order of the
    others, [get(k)] becomes empty, every other key reads as before. *)
Theorem remove_in_set_clear_state (ops : list (Op (K:=K) (V:=V)))
    (Hops : forallb is_set_or_clear ops = true) k
    (Hk : contains_key (run ops) k = true) :
  (remove (run ops) k).1 = _values (run ops) !! k /\
  keys (remove (run ops) k).2 = filter (fun k' => k' <> k) (keys (run ops)) /\
  get (remove (run ops) k).2 k = None /\
  (forall k', k' <> k -> get (remove (run ops) k).2 k' = get (run ops) k').
Proof.
  destruct (run_set_clear ops Hops) as [Hwf _].
  destruct Hwf as (Hnd & H2 & H3).
  unfold contains_key in Hk. apply bool_decide_eq_true in Hk as [x Hx].
  destruct (H3 _ _ Hx) as (j & Hi & Hj).
  unfold remove, keys, get. rewrite Hx. simpl. rewrite Hi.
  unfold Collections.remove.
  assert (Hlt : j < length (_keys (run ops))) by (eapply lookup_lt_Some; eauto).
  rewrite decide_False by lia.
  split; [done|]. split; [by apply delete_nodup_filter|].
  rewrite lookup_delete_eq. split; [done|].
  intros k' Hne. by rewrite lookup_delete_ne by congruence.
Qed.

(** Round trip: after [set(k, v)] on a state built from [new] by [set] and
    [clear], some slot [i] has [key_at(Some(i)) = k] and [at(Some(i)) = v]. *)
Theorem set_then_at_round_trip (ops : list (Op (K:=K) (V:=V)))
    (Hops : forallb is_set_or_clear ops = true) k v :
  exists i, key_at (set (run ops) k v) (Some i) = Some k /\
            at_ (set (run ops) k v) (Some i) = Some v.
Proof.
  assert (Hops' : forallb is_set_or_clear (ops ++ [OSet k v]) = true).
  { rewrite forallb_app, Hops. done. }
  destruct (run_set_clear _ Hops') as [(Hnd & H2 & H3) _].
  assert (Hrun : run (ops ++ [OSet k v]) = set (run ops) k v).
  { unfold run. by rewrite foldl_app. }
  rewrite Hrun in H3.
  destruct (set_lookup_eq (run ops) k v) as [i1 Hx].
  destruct (H3 _ _ Hx) as (j & Hi & Hj). simpl in Hi. subst i1.
  exists j.
  assert (Hka : key_at (set (run ops) k v) (Some j) = Some k).
  { assert (Hlt : j < length (_keys (set (run ops) k v))) by (eapply lookup_lt_Some; eauto).
    unfold key_at, Collections.get, Collections.len. by rewrite !decide_False by lia. }
  split; [done|]. rewrite at_key_at, Hka, Hx. done.
Qed.

(** [Debug::fmt] after [set(k, v)] of a key neither in the order index nor in
    the value table is the previous rendering followed by [k: v]. *)
Theorem fmt_set_fresh (fmt_k : K -> string) (fmt_v : V -> string) s k v
    (Hk : k ∉ _keys s) (Hv : _values s !! k = None) :
  fmt fmt_k fmt_v (set s k v) = (fmt fmt_k fmt_v s ++ (fmt_k k ++ ": " ++ fmt_v v))%string.
Proof.
  rewrite (set_fresh s k v Hv). unfold fmt, Collections.len. simpl.
  rewrite length_app, Nat.add_1_r, seq_S, foldl_app. simpl.
  assert (Hpre : foldl (fmt_entry fmt_k fmt_v
                   (mkMap (_keys s ++ [k]) (<[k:=mkValue (Some (length (_keys s))) v]> (_values s))))
                   "" (seq 0 (length (_keys s)))
                 = foldl (fmt_entry fmt_k fmt_v s) "" (seq 0 (length (_keys s)))).
  { apply foldl_ext_in. intros out i Hi. apply elem_of_seq in Hi.
    unfold fmt_entry, Collections.get. simpl. rewrite length_app. simpl.
    rewrite !decide_False by lia. rewrite lookup_app_l by lia.
    destruct (_keys s !! i) as [k'|] eqn:Ek'; [|done].
    rewrite lookup_insert_ne; [done|].
    intros ->. apply Hk. eapply list_elem_of_lookup. eauto. }
  rewrite Hpre. unfold fmt_entry at 1, Collections.get. simpl.
  rewrite length_app. simpl. rewrite decide_False by lia.
  rewrite lookup_app_r, Nat.sub_diag by lia. simpl.
  rewrite lookup_insert_eq. done.
Qed.

End Extras.

(** ** Concrete runs over [&str] keys and [usize] values *)

Abbreviation Map := (IndexedLinkedHashMap string nat).

(** After [set("a",1); set("b",2); set("c",3); remove("a")] the
    order index is [["b"; "c"]], but the value table still records [b] at
    position 1 and [c] at position 2: [remove] shifts the [Vec] without
    shifting the positions recorded for the later keys. *)
Theorem remove_leaves_stale_positions :
  keys abc = ["b"; "c"] /\
  _values abc !! "b" = Some (mkValue (Some 1) 2) /\
  _values abc !! "c" = Some (mkValue (Some 2) 3) /\
  keys abc !! 1 <> Some "b" /\
  keys abc !! 2 <> Some "c".
Proof. vm_compute. repeat split; discriminate. Qed.

(** C2: a counterexample.  [set("k",1); set_at(Some(0), "b", 3)] leaves
    [len() = 1] but [values()] of length 2: the entry of [k] is orphaned. *)
Lemma len_values_counterexample :
  ~ (forall ops : list (Op (K:=string) (V:=nat)),
       len (run ops) = length (keys (run ops)) /\
       len (run ops) = length (values (run ops))).
Proof.
  intros Hall. destruct (Hall [OSet "k" 1; OSetAt (Some 0) "b" 3]) as [_ Hv].
  vm_compute in Hv. discriminate.
Qed.

(** C2: the amended invariant on [set("a",1); set("b",2); set("a",3);
    clear(); set("c",4); set("d",5)]. *)
Lemma len_invariant_set_clear_witness :
  forallb is_set_or_clear
    [OSet "a" 1; OSet "b" 2; OSet "a" 3; OClear; OSet "c" 4; OSet "d" 5] = true /\
  len (run [OSet "a" 1; OSet "b" 2; OSet "a" 3; OClear; OSet "c" 4; OSet "d" 5]) = 2.
Proof.
  split; [reflexivity|].
  destruct (len_invariant_set_clear
              [OSet "a" 1; OSet "b" 2; OSet "a" 3; OClear; OSet "c" 4; OSet "d" 5]
              eq_refl) as (_ & _ & Hd & _).
  rewrite Hd. reflexivity.
Defined.

(** C3 (defect): removing "b" from [abc] returns its entry, but deletes slot 1
    of the order index, which holds "c": "b" stays in [keys()] while "c",
    still in the value table, leaves it. *)
Theorem remove_deletes_wrong_slot :
  (remove abc "b").1 = Some (mkValue (Some 1) 2) /\
  keys (remove abc "b").2 = ["b"] /\
  contains_key (remove abc "b").2 "b" = false /\
  get (remove abc "b").2 "c" = Some 3.
Proof. vm_compute. repeat split. Qed.

(** C4: [set("a",1); set("b",2); set("c",3); remove("a")] on a fresh map:
    [key_at(0) = "b"], [key_at(1) = "c"], [get("b") = 2], [get("c") = 3],
    [len() = 2]. *)
Theorem remove_reindexing_example :
  key_at abc (Some 0) = Some "b" /\
  key_at abc (Some 1) = Some "c" /\
  get abc "b" = Some 2 /\
  get abc "c" = Some 3 /\
  len abc = 2.
Proof. vm_compute. repeat split. Qed.

(** C6: [set_at(Some(5), "z", 9)] on a one-entry map. *)
Lemma set_at_out_of_range_witness :
  len (set (new (K:=string) (V:=nat)) "a" 1) <= 5 /\
  set_at (set new "a" 1) (Some 5) "z" 9 = set (new (K:=string) (V:=nat)) "a" 1.
Proof.
  split; [vm_compute; lia|].
  apply set_at_out_of_range. vm_compute. lia.
Defined.

(** C7: a counterexample.  After [set("a",1); set("b",2); set_at(Some(1), "a", 3)]
    the order index is [["a"; "a"]]; [set_at(Some(0), "c", 4)] then leaves
    "a" in the order index. *)
Lemma stale_key_counterexample :
  ~ (forall (s : Map) (i : nat) (k_old k_new : string) (v : nat),
       i < len s -> keys s !! i = Some k_old -> k_new <> k_old ->
       k_old ∉ keys (set_at s (Some i) k_new v)).
Proof.
  intros Hall.
  apply (Hall (run [OSet "a" 1; OSet "b" 2; OSetAt (Some 1) "a" 3]) 0 "a" "c" 4).
  - vm_compute. lia.
  - reflexivity.
  - discriminate.
  - vm_compute. apply list_elem_of_In. simpl. auto.
Qed.

(** C7: the amended statement on [set("a",1)], [set_at(Some(0), "b", 2)]. *)
Lemma set_at_stale_key_witness :
  0 < len (set (new (K:=string) (V:=nat)) "a" 1) /\
  get (set_at (set new "a" 1) (Some 0) "b" 2) "a" = Some 1.
Proof.
  split; [vm_compute; lia|].
  destruct (set_at_stale_key (set (new (K:=string) (V:=nat)) "a" 1) 0 "a" "b" 2)
    as (_ & _ & _ & _ & _ & Hg & _).
  - vm_compute. lia.
  - reflexivity.
  - discriminate.
  - rewrite Hg. reflexivity.
Defined.

(** C8: [set("x",1); set("y",2); set("z",3)] gives [keys() = ["x"; "y"; "z"]]. *)
Lemma keys_run_set_distinct_witness :
  NoDup ([("x", 1); ("y", 2); ("z", 3)] : list (string * nat)).*1 /\
  keys (run (map (fun kv : string * nat => OSet kv.1 kv.2) [("x", 1); ("y", 2); ("z", 3)]))
    = ["x"; "y"; "z"].
Proof.
  assert (Hnd : NoDup ([("x", 1); ("y", 2); ("z", 3)] : list (string * nat)).*1)
    by (simpl; repeat constructor; set_solver).
  split; [exact Hnd|].
  exact (keys_run_set_distinct _ Hnd).
Defined.

(** C10: a counterexample.  [set_at(None, "k", 2)] after [set("k", 1)]
    leaves "k" in [keys()]. *)
Lemma set_at_none_counterexample :
  ~ (forall (s : Map) (k : string) (v : nat), k ∉ keys (set_at s None k v)).
Proof.
  intros Hall. apply (Hall (set new "k" 1) "k" 2).
  vm_compute. apply list_elem_of_In. simpl. auto.
Qed.

(** C1: a counterexample.  After [set("k",1); set_at(Some(0), "b", 3)] the
    value table still records [k] at position 0, which now holds "b". *)
Lemma positions_counterexample :
  ~ (forall ops : list (Op (K:=string) (V:=nat)),
       forall k x, _values (run ops) !! k = Some x ->
       exists j, index x = Some j /\ keys (run ops) !! j = Some k).
Proof.
  intros Hall.
  destruct (Hall [OSet "k" 1; OSetAt (Some 0) "b" 3] "k" (mkValue (Some 0) 1))
    as (j & Hj & Hk).
  - reflexivity.
  - injection Hj as <-. vm_compute in Hk. discriminate.
Qed.

(** C1: the amended statement on [set("a",1); set("b",2); clear(); set("c",3)]. *)
Lemma positions_consistent_set_clear_witness :
  forallb is_set_or_clear [OSet "a" 1; OSet "b" 2; OClear; OSet "c" 3] = true /\
  NoDup (keys (run [OSet "a" 1; OSet "b" 2; OClear; OSet "c" 3])).
Proof.
  split; [reflexivity|].
  exact (proj1 (positions_consistent_set_clear
                  [OSet "a" 1; OSet "b" 2; OClear; OSet "c" (3 : nat)] eq_refl)).
Defined.

(** ** Witnesses of the further properties *)

Lemma remove_set_fresh_witness :
  _values abc !! "d" = None /\
  remove (set abc "d" 4) "d" = (Some (mkValue (Some 2) 4), abc).
Proof.
  split; [reflexivity|]. apply (remove_set_fresh abc "d" 4). reflexivity.
Defined.

Lemma remove_absent_witness :
  contains_key abc "a" = false /\ remove abc "a" = (None, abc).
Proof. split; [reflexivity|]. apply (remove_absent abc "a"). reflexivity. Defined.

Lemma set_at_in_range_read_witness :
  1 < len abc /\ at_ (set_at abc (Some 1) "z" 9) (Some 1) = Some 9.
Proof.
  split; [vm_compute; lia|].
  apply (set_at_in_range_read abc 1 "z" 9). vm_compute. lia.
Defined.

Lemma vec_remove_shift_witness :
  0 < length ["a"; "b"; "c"] /\
  Collections.get (Collections.remove ["a"; "b"; "c"] (Some 0)) (Some 1) = Some "c".
Proof.
  split; [simpl; lia|].
  rewrite (vec_remove_shift ["a"; "b"; "c"] 0 1) by (simpl; lia). reflexivity.
Defined.

Lemma contains_key_iff_keys_witness :
  forallb is_set_or_clear ops_ab = true /\
  "b" ∈ keys (run ops_ab).
Proof.
  split; [reflexivity|].
  apply (contains_key_iff_keys ops_ab eq_refl "b").
  reflexivity.
Defined.

Lemma at_in_set_clear_state_witness :
  forallb is_set_or_clear ops_ab = true /\
  at_ (run ops_ab) (Some 2) = None.
Proof.
  split; [reflexivity|].
  apply (at_in_set_clear_state ops_ab eq_refl 2).
  vm_compute. lia.
Defined.

Lemma remove_in_set_clear_state_witness :
  forallb is_set_or_clear ops_abc = true /\
  keys (remove (run ops_abc) "b").2 = ["a"; "c"].
Proof.
  split; [reflexivity|].
  assert (Hc : contains_key (run ops_abc) "b" = true) by (vm_compute; reflexivity).
  destruct (remove_in_set_clear_state ops_abc eq_refl "b" Hc) as (_ & Hk & _).
  rewrite Hk. reflexivity.
Defined.

Lemma set_then_at_round_trip_witness :
  forallb is_set_or_clear ops_a_clear_b = true /\
  exists i, key_at (set (run ops_a_clear_b) "a" 7) (Some i) = Some "a" /\
            at_ (set (run ops_a_clear_b) "a" 7) (Some i) = Some 7.
Proof.
  split; [reflexivity|].
  exact (set_then_at_round_trip ops_a_clear_b eq_refl "a" 7).
Defined.

(** The crate's own [debug::fmt] test: [set("k", 1)] renders as ["k": 1]. *)
Lemma fmt_set_fresh_witness :
  ("k" ∉ _keys (new (K:=string) (V:=nat))) /\
  fmt debug_str pretty (set new "k" 1) = (debug_str "k" ++ ": 1")%string.
Proof.
  split; [simpl; set_solver|].
  rewrite (fmt_set_fresh debug_str pretty new "k" 1); [|simpl; set_solver|reflexivity].
  reflexivity.
Defined.
